(** * ocicrypt [config/constructors.go]: the CryptoConfig constructors

    A shallow embedding of the eight constructors of package [config]
    ([EncryptWithJwe], [EncryptWithPkcs7], [EncryptWithGpg],
    [EncryptWithPkcs11], [DecryptWithPrivKeys], [DecryptWithX509s],
    [DecryptWithGpgPrivKeys], [DecryptWithPkcs11]) and the properties of the
    configurations they return.

    Go values that can be [nil] (slices, maps, pointers, the [error]
    interface) keep that distinction.  Maps and the structs reached through
    [&...] live in an explicit heap: a map is a reference, so the copy of
    [dc] stored inside the [EncryptConfig] and the [DecryptConfig] reached
    through [&dc] share one map object. *)

From stdpp Require Import gmap strings list fin_maps.
From Stdlib Require Import Strings.Byte.

(** ** Go values *)

(** A Go value of a type that has [nil]: either [nil] or a proper value. *)
Inductive nilable (A : Type) : Type :=
  | Nil
  | NonNil (a : A).
Arguments Nil {A}.
Arguments NonNil {A} a.

#[global] Instance nilable_eq_dec {A} `{EqDecision A} : EqDecision (nilable A).
Proof. solve_decision. Defined.

#[global] Instance byte_eq_dec : EqDecision Byte.byte.
Proof. intros x y. destruct (Byte.byte_eq_dec x y); [left | right]; done. Defined.

(** A slice is modelled by its nil-ness and its elements in order.  The
    constructors never write to a backing array, so the sharing of backing
    arrays between the caller and the configuration is not observable
    here. *)
Definition slice (A : Type) : Type := nilable (list A).

(** The builtin [len]: a nil slice has length 0. *)
Definition len {A} (s : slice A) : nat :=
  match s with
  | Nil => 0
  | NonNil l => length l
  end.

(** [[]byte] and [[][]byte]. *)
Abbreviation bytes := (nilable (list Byte.byte)).
Abbreviation byteslices := (nilable (list (nilable (list Byte.byte)))).

(** The conversion [[]byte("...")] of a string constant. *)
Definition bytes_of (s : string) : bytes := NonNil (String.list_byte_of_string s).

(** The contents of a non-nil [map[string][][]byte]. *)
Abbreviation params := (gmap string (nilable (list (nilable (list Byte.byte))))).

(** Heap addresses. *)
Definition loc : Type := positive.

(** Modelled from the spec: the declarations of [DecryptConfig],
    [EncryptConfig] and [CryptoConfig] are in [config.go], which is not among
    the sources.  Their fields are the ones the composite literals of
    [constructors.go] name, with the types the data model of the
    specification gives them: a decrypt configuration owns a parameter set;
    an encrypt configuration owns a parameter set and holds a decrypt
    configuration by value; a crypto configuration points to one of each.
    [Parameters] is a map, that is, [nil] or a reference to a map object. *)
Record DecryptConfig : Type := mkDecryptConfig {
  dc_Parameters : nilable loc
}.

Record EncryptConfig : Type := mkEncryptConfig {
  ec_Parameters : nilable loc;
  ec_DecryptConfig : DecryptConfig
}.

Record CryptoConfig : Type := mkCryptoConfig {
  cc_EncryptConfig : nilable loc;
  cc_DecryptConfig : nilable loc
}.

(** The zero values [DecryptConfig{}] and [CryptoConfig{}]. *)
Definition DecryptConfig_zero : DecryptConfig :=
  {| dc_Parameters := Nil |}.

Definition CryptoConfig_zero : CryptoConfig :=
  {| cc_EncryptConfig := Nil; cc_DecryptConfig := Nil |}.

(** The [error] interface: [nil], or an error made by [errors.New] from a
    message (the stack trace that [github.com/pkg/errors] attaches is not
    modelled). *)
Definition error : Type := nilable string.

Definition errors_New (msg : string) : error := NonNil msg.

(** ** The heap *)

Inductive object : Type :=
  | OMap (m : params)
  | OEncryptConfig (ec : EncryptConfig)
  | ODecryptConfig (dc : DecryptConfig).

Abbreviation heap := (gmap positive object).

(** The allocator of the Go runtime is not specified beyond returning storage
    that is not in use; everything below holds for every such allocator. *)
Class Allocator : Type := {
  fresh_loc : heap → loc;
  fresh_loc_free : ∀ h : heap, h !! fresh_loc h = None
}.

(** A concrete allocator: the least address above the ones in use. *)
#[global] Program Instance bump_allocator : Allocator := {|
  fresh_loc h := fresh (dom h)
|}.
Next Obligation.
  intros h. apply (not_elem_of_dom (D := gset positive)). apply is_fresh.
Qed.

(** Computations that allocate: explicit heap passing. *)
Definition M (A : Type) : Type := heap → A * heap.

#[global] Instance M_ret : MRet M := λ A (a : A) (h : heap), (a, h).

#[global] Instance M_bind : MBind M := λ A B (f : A → M B) (c : M A) (h : heap),
  let (a, h') := c h in f a h'.

Section constructors.
Context {alloc : Allocator}.

(** Allocation of a new object: [&T{...}], [&v] for a local [v] that is not
    assigned afterwards, and the storage of a map literal. *)
Definition new (o : object) : M loc := λ h,
  let l := fresh_loc h in (l, <[l := o]> h).

(** A map literal [map[string][][]byte{...}] with the given entries. *)
Definition map_literal (m : params) : M (nilable loc) :=
  l ← new (OMap m); mret (NonNil l).

(** ** The constructors, in the order of the source *)

Definition EncryptWithJwe (pubKeys : byteslices) : M (CryptoConfig * error) :=
  let dc := DecryptConfig_zero in
  ep ← map_literal {[ "pubkeys" := pubKeys ]};
  pec ← new (OEncryptConfig {| ec_Parameters := ep; ec_DecryptConfig := dc |});
  pdc ← new (ODecryptConfig dc);
  mret ({| cc_EncryptConfig := NonNil pec; cc_DecryptConfig := NonNil pdc |},
        Nil).

Definition EncryptWithPkcs7 (x509s : byteslices) : M (CryptoConfig * error) :=
  let dc := DecryptConfig_zero in
  ep ← map_literal {[ "x509s" := x509s ]};
  pec ← new (OEncryptConfig {| ec_Parameters := ep; ec_DecryptConfig := dc |});
  pdc ← new (ODecryptConfig dc);
  mret ({| cc_EncryptConfig := NonNil pec; cc_DecryptConfig := NonNil pdc |},
        Nil).

Definition EncryptWithGpg (gpgRecipients : byteslices) (gpgPubRingFile : bytes)
  : M (CryptoConfig * error) :=
  let dc := DecryptConfig_zero in
  ep ← map_literal {[ "gpg-recipients" := gpgRecipients;
                      "gpg-pubkeyringfile" := NonNil [gpgPubRingFile] ]};
  pec ← new (OEncryptConfig {| ec_Parameters := ep; ec_DecryptConfig := dc |});
  pdc ← new (ODecryptConfig dc);
  mret ({| cc_EncryptConfig := NonNil pec; cc_DecryptConfig := NonNil pdc |},
        Nil).

Definition EncryptWithPkcs11 (modules pins : byteslices)
  : M (CryptoConfig * error) :=
  if decide (len modules ≠ len pins) then
    mret (CryptoConfig_zero,
          errors_New "Length of modules should match length of pins")
  else if decide (len modules ≠ 1) then
    mret (CryptoConfig_zero,
          errors_New "experimental, just support single module")
  else
    let dc := DecryptConfig_zero in
    ep ← map_literal {[ "modules" := modules; "pins" := pins ]};
    pec ← new (OEncryptConfig {| ec_Parameters := ep; ec_DecryptConfig := dc |});
    pdc ← new (ODecryptConfig dc);
    mret ({| cc_EncryptConfig := NonNil pec; cc_DecryptConfig := NonNil pdc |},
          Nil).

Definition DecryptWithPrivKeys (privKeys privKeysPasswords : byteslices)
  : M (CryptoConfig * error) :=
  if decide (len privKeys ≠ len privKeysPasswords) then
    mret (CryptoConfig_zero,
          errors_New "Length of privKeys should match length of privKeysPasswords")
  else
    dp ← map_literal {[ "privkeys" := privKeys;
                        "privkeys-passwords" := privKeysPasswords ]};
    let dc := {| dc_Parameters := dp |} in
    ep ← map_literal ∅;
    pec ← new (OEncryptConfig {| ec_Parameters := ep; ec_DecryptConfig := dc |});
    pdc ← new (ODecryptConfig dc);
    mret ({| cc_EncryptConfig := NonNil pec; cc_DecryptConfig := NonNil pdc |},
          Nil).

Definition DecryptWithX509s (x509s : byteslices) : M (CryptoConfig * error) :=
  dp ← map_literal {[ "x509s" := x509s ]};
  let dc := {| dc_Parameters := dp |} in
  ep ← map_literal ∅;
  pec ← new (OEncryptConfig {| ec_Parameters := ep; ec_DecryptConfig := dc |});
  pdc ← new (ODecryptConfig dc);
  mret ({| cc_EncryptConfig := NonNil pec; cc_DecryptConfig := NonNil pdc |},
        Nil).

Definition DecryptWithGpgPrivKeys (gpgPrivKeys gpgPrivKeysPwds : byteslices)
  : M (CryptoConfig * error) :=
  dp ← map_literal {[ "gpg-privatekeys" := gpgPrivKeys;
                      "gpg-privatekeys-passwords" := gpgPrivKeysPwds ]};
  let dc := {| dc_Parameters := dp |} in
  ep ← map_literal ∅;
  pec ← new (OEncryptConfig {| ec_Parameters := ep; ec_DecryptConfig := dc |});
  pdc ← new (ODecryptConfig dc);
  mret ({| cc_EncryptConfig := NonNil pec; cc_DecryptConfig := NonNil pdc |},
        Nil).

Definition DecryptWithPkcs11 (modules pins : byteslices)
  : M (CryptoConfig * error) :=
  dp ← map_literal {[ "modules" := modules; "pins" := pins ]};
  let dc := {| dc_Parameters := dp |} in
  ep ← map_literal ∅;
  pec ← new (OEncryptConfig {| ec_Parameters := ep; ec_DecryptConfig := dc |});
  pdc ← new (ODecryptConfig dc);
  mret ({| cc_EncryptConfig := NonNil pec; cc_DecryptConfig := NonNil pdc |},
        Nil).

(** One call of a constructor of the family, with its arguments. *)
Inductive call : Type :=
  | Call_EncryptWithJwe (pubKeys : byteslices)
  | Call_EncryptWithPkcs7 (x509s : byteslices)
  | Call_EncryptWithGpg (gpgRecipients : byteslices) (gpgPubRingFile : bytes)
  | Call_EncryptWithPkcs11 (modules pins : byteslices)
  | Call_DecryptWithPrivKeys (privKeys privKeysPasswords : byteslices)
  | Call_DecryptWithX509s (x509s : byteslices)
  | Call_DecryptWithGpgPrivKeys (gpgPrivKeys gpgPrivKeysPwds : byteslices)
  | Call_DecryptWithPkcs11 (modules pins : byteslices).

Definition run (c : call) : M (CryptoConfig * error) :=
  match c with
  | Call_EncryptWithJwe pubKeys => EncryptWithJwe pubKeys
  | Call_EncryptWithPkcs7 x509s => EncryptWithPkcs7 x509s
  | Call_EncryptWithGpg r f => EncryptWithGpg r f
  | Call_EncryptWithPkcs11 modules pins => EncryptWithPkcs11 modules pins
  | Call_DecryptWithPrivKeys k p => DecryptWithPrivKeys k p
  | Call_DecryptWithX509s x509s => DecryptWithX509s x509s
  | Call_DecryptWithGpgPrivKeys k p => DecryptWithGpgPrivKeys k p
  | Call_DecryptWithPkcs11 modules pins => DecryptWithPkcs11 modules pins
  end.

End constructors.

(** ** Error conditions *)

Inductive condition : Type :=
  | InvalidArgument
  | UnsupportedConfiguration.

#[global] Instance condition_eq_dec : EqDecision condition.
Proof. solve_decision. Defined.

(** Modelled from the spec: the source has no error types, only the three
    messages given to [errors.New].  The taxonomy of the specification names
    the two length-mismatch errors [InvalidArgument] and the single-module
    error [UnsupportedConfiguration]. *)
Definition condition_of (e : error) : option condition :=
  match e with
  | Nil => None
  | NonNil msg =>
      if decide (msg = "Length of modules should match length of pins")
      then Some InvalidArgument
      else if decide (msg = "Length of privKeys should match length of privKeysPasswords")
      then Some InvalidArgument
      else if decide (msg = "experimental, just support single module")
      then Some UnsupportedConfiguration
      else None
  end.

(** ** Deep values

    What a caller sees of a configuration by following its pointers and map
    references in a heap: [None] when a reference is dangling or of the
    wrong kind.  Two configurations are equal for [reflect.DeepEqual] when
    their deep values are equal: pointers are compared through their
    pointees, maps by nil-ness and entries, slices by nil-ness and
    elements. *)

Record DecryptConfigV : Type := mkDecryptConfigV {
  dcv_Parameters : nilable params
}.

Record EncryptConfigV : Type := mkEncryptConfigV {
  ecv_Parameters : nilable params;
  ecv_DecryptConfig : DecryptConfigV
}.

Record CryptoConfigV : Type := mkCryptoConfigV {
  ccv_EncryptConfig : nilable EncryptConfigV;
  ccv_DecryptConfig : nilable DecryptConfigV
}.

#[global] Instance DecryptConfigV_eq_dec : EqDecision DecryptConfigV.
Proof. solve_decision. Defined.
#[global] Instance EncryptConfigV_eq_dec : EqDecision EncryptConfigV.
Proof. solve_decision. Defined.
#[global] Instance CryptoConfigV_eq_dec : EqDecision CryptoConfigV.
Proof. solve_decision. Defined.

Definition load_map (h : heap) (r : nilable loc) : option (nilable params) :=
  match r with
  | Nil => Some Nil
  | NonNil l =>
      match h !! l with
      | Some (OMap m) => Some (NonNil m)
      | _ => None
      end
  end.

Definition view_DecryptConfig (h : heap) (dc : DecryptConfig)
  : option DecryptConfigV :=
  p ← load_map h (dc_Parameters dc);
  Some {| dcv_Parameters := p |}.

Definition view_EncryptConfig (h : heap) (ec : EncryptConfig)
  : option EncryptConfigV :=
  p ← load_map h (ec_Parameters ec);
  d ← view_DecryptConfig h (ec_DecryptConfig ec);
  Some {| ecv_Parameters := p; ecv_DecryptConfig := d |}.

Definition load_DecryptConfig (h : heap) (r : nilable loc)
  : option (nilable DecryptConfigV) :=
  match r with
  | Nil => Some Nil
  | NonNil l =>
      match h !! l with
      | Some (ODecryptConfig dc) => NonNil <$> view_DecryptConfig h dc
      | _ => None
      end
  end.

Definition load_EncryptConfig (h : heap) (r : nilable loc)
  : option (nilable EncryptConfigV) :=
  match r with
  | Nil => Some Nil
  | NonNil l =>
      match h !! l with
      | Some (OEncryptConfig ec) => NonNil <$> view_EncryptConfig h ec
      | _ => None
      end
  end.

Definition deep_value (h : heap) (cfg : CryptoConfig) : option CryptoConfigV :=
  e ← load_EncryptConfig h (cc_EncryptConfig cfg);
  d ← load_DecryptConfig h (cc_DecryptConfig cfg);
  Some {| ccv_EncryptConfig := e; ccv_DecryptConfig := d |}.

(** [reflect.DeepEqual] on two configurations living in the heap [h]. *)
Definition DeepEqual (h : heap) (a b : CryptoConfig) : Prop :=
  is_Some (deep_value h a) ∧ deep_value h a = deep_value h b.

#[global] Instance DeepEqual_dec h a b : Decision (DeepEqual h a b).
Proof. unfold DeepEqual. apply _. Defined.

(** The index expression [m[k]] on a map that may be nil: the zero value, a
    nil slice, when the key is missing. *)
Definition map_index (m : nilable params) (k : string) : byteslices :=
  match m with
  | Nil => Nil
  | NonNil m => default Nil (m !! k)
  end.
Arguments map_index : simpl never.

(** The parameter sets held by a configuration: the encrypt side's, the one
    of the decrypt configuration embedded in the encrypt side, and the
    decrypt side's. *)
Definition parameter_sets (v : CryptoConfigV) : list (nilable params) :=
  match ccv_EncryptConfig v with
  | Nil => []
  | NonNil e => [ecv_Parameters e; dcv_Parameters (ecv_DecryptConfig e)]
  end ++
  match ccv_DecryptConfig v with
  | Nil => []
  | NonNil d => [dcv_Parameters d]
  end.

(** The keys whose sequences are paired position by position. *)
Definition paired_keys : list (string * string) :=
  [ ("modules", "pins");
    ("privkeys", "privkeys-passwords");
    ("gpg-privatekeys", "gpg-privatekeys-passwords") ].

Definition well_paired (m : nilable params) : bool :=
  forallb (λ kk, bool_decide (len (map_index m kk.1) = len (map_index m kk.2)))
          paired_keys.

Definition all_well_paired (v : CryptoConfigV) : bool :=
  forallb well_paired (parameter_sets v).

(** Sample inputs. *)
Definition mod1 : bytes := bytes_of "mod1".
Definition mod2 : bytes := bytes_of "mod2".
Definition pin1 : bytes := bytes_of "pin1".
Definition cert1 : bytes := bytes_of "cert1".
Definition key1 : bytes := bytes_of "key1".
Definition key2 : bytes := bytes_of "key2".

(** The field [cfg.EncryptConfig.DecryptConfig] and the pointee
    [*cfg.DecryptConfig], as Go values ([None] where Go would panic on a nil
    or dangling pointer). *)
Definition embedded_DecryptConfig (h : heap) (cfg : CryptoConfig)
  : option DecryptConfig :=
  match cc_EncryptConfig cfg with
  | Nil => None
  | NonNil l =>
      match h !! l with
      | Some (OEncryptConfig ec) => Some (ec_DecryptConfig ec)
      | _ => None
      end
  end.

Definition toplevel_DecryptConfig (h : heap) (cfg : CryptoConfig)
  : option DecryptConfig :=
  match cc_DecryptConfig cfg with
  | Nil => None
  | NonNil l =>
      match h !! l with
      | Some (ODecryptConfig dc) => Some dc
      | _ => None
      end
  end.

(** ** Proof devices: the three shapes of a return

    Every constructor either fails with a message and the zero
    configuration, or allocates an encrypt-side bundle, or allocates a
    decrypt-side bundle; [run_shape_of] below proves it. *)

Inductive shape : Type :=
  | Failed (msg : string)
  | EncryptSide (m : params)
  | DecryptSide (m : params).

Definition shape_of (c : call) : shape :=
  match c with
  | Call_EncryptWithJwe pubKeys => EncryptSide {[ "pubkeys" := pubKeys ]}
  | Call_EncryptWithPkcs7 x509s => EncryptSide {[ "x509s" := x509s ]}
  | Call_EncryptWithGpg r f =>
      EncryptSide {[ "gpg-recipients" := r;
                     "gpg-pubkeyringfile" := NonNil [f] ]}
  | Call_EncryptWithPkcs11 modules pins =>
      if decide (len modules ≠ len pins)
      then Failed "Length of modules should match length of pins"
      else if decide (len modules ≠ 1)
      then Failed "experimental, just support single module"
      else EncryptSide {[ "modules" := modules; "pins" := pins ]}
  | Call_DecryptWithPrivKeys k p =>
      if decide (len k ≠ len p)
      then Failed "Length of privKeys should match length of privKeysPasswords"
      else DecryptSide {[ "privkeys" := k; "privkeys-passwords" := p ]}
  | Call_DecryptWithX509s x509s => DecryptSide {[ "x509s" := x509s ]}
  | Call_DecryptWithGpgPrivKeys k p =>
      DecryptSide {[ "gpg-privatekeys" := k;
                     "gpg-privatekeys-passwords" := p ]}
  | Call_DecryptWithPkcs11 modules pins =>
      DecryptSide {[ "modules" := modules; "pins" := pins ]}
  end.

Definition shape_error (s : shape) : error :=
  match s with
  | Failed msg => errors_New msg
  | _ => Nil
  end.

Definition shape_value (s : shape) : CryptoConfigV :=
  match s with
  | Failed _ => {| ccv_EncryptConfig := Nil; ccv_DecryptConfig := Nil |}
  | EncryptSide m =>
      {| ccv_EncryptConfig :=
           NonNil {| ecv_Parameters := NonNil m;
                     ecv_DecryptConfig := {| dcv_Parameters := Nil |} |};
         ccv_DecryptConfig := NonNil {| dcv_Parameters := Nil |} |}
  | DecryptSide m =>
      {| ccv_EncryptConfig :=
           NonNil {| ecv_Parameters := NonNil ∅;
                     ecv_DecryptConfig := {| dcv_Parameters := NonNil m |} |};
         ccv_DecryptConfig := NonNil {| dcv_Parameters := NonNil m |} |}
  end.

(** The constructors that take two paired sequences and compare no
    lengths. *)
Definition unchecked_pairing (c : call) : bool :=
  match c with
  | Call_DecryptWithGpgPrivKeys _ _ | Call_DecryptWithPkcs11 _ _ => true
  | _ => false
  end.

(** The pairing invariant read over every constructor: each configuration
    returned without error has only well-paired parameter sets. *)
Definition pairing_invariant : Prop :=
  ∀ (alloc : Allocator) (c : call) (h : heap) cfg h' v,
    run c h = (cfg, Nil, h') → deep_value h' cfg = Some v →
    all_well_paired v = true.



Section properties.
Context {alloc : Allocator}.

Definition encrypt_bundle (m : params) : M (CryptoConfig * error) :=
  ep ← map_literal m;
  pec ← new (OEncryptConfig {| ec_Parameters := ep;
                               ec_DecryptConfig := DecryptConfig_zero |});
  pdc ← new (ODecryptConfig DecryptConfig_zero);
  mret ({| cc_EncryptConfig := NonNil pec; cc_DecryptConfig := NonNil pdc |},
        Nil).

Definition decrypt_bundle (m : params) : M (CryptoConfig * error) :=
  dp ← map_literal m;
  ep ← map_literal ∅;
  pec ← new (OEncryptConfig {| ec_Parameters := ep;
                               ec_DecryptConfig := {| dc_Parameters := dp |} |});
  pdc ← new (ODecryptConfig {| dc_Parameters := dp |});
  mret ({| cc_EncryptConfig := NonNil pec; cc_DecryptConfig := NonNil pdc |},
        Nil).

Definition run_shape (s : shape) : M (CryptoConfig * error) :=
  match s with
  | Failed msg => mret (CryptoConfig_zero, errors_New msg)
  | EncryptSide m => encrypt_bundle m
  | DecryptSide m => decrypt_bundle m
  end.

(** What a successful return leaves in the heap, at the level of Go values:
    both pointers are valid, and the [DecryptConfig] stored in the
    [EncryptConfig] is the pointee of the top-level pointer. *)
Definition returned (h : heap) (cfg : CryptoConfig) (dc : DecryptConfig) : Prop :=
  embedded_DecryptConfig h cfg = Some dc ∧ toplevel_DecryptConfig h cfg = Some dc.

(** ** Heap lemmas *)

Lemma new_spec (o : object) (h : heap) :
  ∃ l, new o h = (l, <[l := o]> h) ∧ h !! l = None.
Proof. exists (fresh_loc h). split; [done | apply fresh_loc_free]. Qed.

Lemma map_literal_spec (m : params) (h : heap) :
  ∃ l, map_literal m h = (NonNil l, <[l := OMap m]> h) ∧ h !! l = None.
Proof.
  destruct (new_spec (OMap m) h) as (l & Hnew & Hfree).
  exists l. split; [| done].
  unfold map_literal, mbind, M_bind. by rewrite Hnew.
Qed.

Lemma load_map_mono (h h' : heap) r v :
  h ⊆ h' → load_map h r = Some v → load_map h' r = Some v.
Proof.
  intros Hsub. destruct r as [|l]; simpl; [done |].
  destruct (h !! l) as [o|] eqn:Hl; [| done].
  by rewrite (lookup_weaken _ _ _ _ Hl Hsub).
Qed.

Lemma view_DecryptConfig_mono (h h' : heap) dc v :
  h ⊆ h' → view_DecryptConfig h dc = Some v → view_DecryptConfig h' dc = Some v.
Proof.
  intros Hsub. unfold view_DecryptConfig.
  destruct (load_map h (dc_Parameters dc)) as [p|] eqn:Hp; [| done].
  by rewrite (load_map_mono _ _ _ _ Hsub Hp).
Qed.

Lemma view_EncryptConfig_mono (h h' : heap) ec v :
  h ⊆ h' → view_EncryptConfig h ec = Some v → view_EncryptConfig h' ec = Some v.
Proof.
  intros Hsub. unfold view_EncryptConfig.
  destruct (load_map h (ec_Parameters ec)) as [p|] eqn:Hp; [| done].
  rewrite (load_map_mono _ _ _ _ Hsub Hp). simpl.
  destruct (view_DecryptConfig h (ec_DecryptConfig ec)) as [d|] eqn:Hd; [| done].
  by rewrite (view_DecryptConfig_mono _ _ _ _ Hsub Hd).
Qed.

Lemma load_DecryptConfig_mono (h h' : heap) r v :
  h ⊆ h' → load_DecryptConfig h r = Some v → load_DecryptConfig h' r = Some v.
Proof.
  intros Hsub. destruct r as [|l]; simpl; [done |].
  destruct (h !! l) as [o|] eqn:Hl; [| done].
  rewrite (lookup_weaken _ _ _ _ Hl Hsub).
  destruct o as [m|ec|dc]; try done.
  destruct (view_DecryptConfig h dc) as [d|] eqn:Hd; [| done].
  by rewrite (view_DecryptConfig_mono _ _ _ _ Hsub Hd).
Qed.

Lemma load_EncryptConfig_mono (h h' : heap) r v :
  h ⊆ h' → load_EncryptConfig h r = Some v → load_EncryptConfig h' r = Some v.
Proof.
  intros Hsub. destruct r as [|l]; simpl; [done |].
  destruct (h !! l) as [o|] eqn:Hl; [| done].
  rewrite (lookup_weaken _ _ _ _ Hl Hsub).
  destruct o as [m|ec|dc]; try done.
  destruct (view_EncryptConfig h ec) as [e|] eqn:He; [| done].
  by rewrite (view_EncryptConfig_mono _ _ _ _ Hsub He).
Qed.

(** Allocation never changes what an existing configuration looks like. *)
Lemma deep_value_mono (h h' : heap) cfg v :
  h ⊆ h' → deep_value h cfg = Some v → deep_value h' cfg = Some v.
Proof.
  intros Hsub. unfold deep_value.
  destruct (load_EncryptConfig h (cc_EncryptConfig cfg)) as [e|] eqn:He; [| done].
  rewrite (load_EncryptConfig_mono _ _ _ _ Hsub He). simpl.
  destruct (load_DecryptConfig h (cc_DecryptConfig cfg)) as [d|] eqn:Hd; [| done].
  by rewrite (load_DecryptConfig_mono _ _ _ _ Hsub Hd).
Qed.

(** ** The bundles *)

Lemma encrypt_bundle_spec (m : params) (h : heap) :
  ∃ cfg h', encrypt_bundle m h = (cfg, Nil, h') ∧ h ⊆ h' ∧
    deep_value h' cfg = Some (shape_value (EncryptSide m)) ∧
    returned h' cfg DecryptConfig_zero.
Proof.
  destruct (map_literal_spec m h) as (lep & Hep & Fep).
  set (h1 := <[lep := OMap m]> h) in *.
  set (ec := {| ec_Parameters := NonNil lep;
                ec_DecryptConfig := DecryptConfig_zero |}).
  destruct (new_spec (OEncryptConfig ec) h1) as (lec & Hec & Fec).
  set (h2 := <[lec := OEncryptConfig ec]> h1) in *.
  destruct (new_spec (ODecryptConfig DecryptConfig_zero) h2) as (ldc & Hdc & Fdc).
  set (h3 := <[ldc := ODecryptConfig DecryptConfig_zero]> h2) in *.
  exists {| cc_EncryptConfig := NonNil lec; cc_DecryptConfig := NonNil ldc |}, h3.
  assert (Hrun : encrypt_bundle m h =
    ({| cc_EncryptConfig := NonNil lec; cc_DecryptConfig := NonNil ldc |}, Nil, h3)).
  { unfold encrypt_bundle, mbind, M_bind. rewrite Hep. fold ec. rewrite Hec.
    by rewrite Hdc. }
  assert (Hsub : h ⊆ h3).
  { subst h1 h2 h3. etrans; [by apply insert_subseteq |].
    etrans; [by apply insert_subseteq |]. by apply insert_subseteq. }
  subst h1 h2 h3.
  apply lookup_insert_None in Fec as [Fec ?].
  apply lookup_insert_None in Fdc as [Fdc ?].
  apply lookup_insert_None in Fdc as [Fdc ?].
  split; [done |]. split; [done |].
  unfold returned, deep_value, embedded_DecryptConfig, toplevel_DecryptConfig,
    load_EncryptConfig, load_DecryptConfig, view_EncryptConfig,
    view_DecryptConfig, load_map, ec; simpl.
  by simplify_map_eq.
Qed.

Lemma decrypt_bundle_spec (m : params) (h : heap) :
  ∃ cfg h' dp, decrypt_bundle m h = (cfg, Nil, h') ∧ h ⊆ h' ∧
    deep_value h' cfg = Some (shape_value (DecryptSide m)) ∧
    returned h' cfg {| dc_Parameters := NonNil dp |} ∧
    h' !! dp = Some (OMap m).
Proof.
  destruct (map_literal_spec m h) as (ldp & Hdp & Fdp).
  set (h1 := <[ldp := OMap m]> h) in *.
  destruct (map_literal_spec ∅ h1) as (lep & Hep & Fep).
  set (h2 := <[lep := OMap ∅]> h1) in *.
  set (dc := {| dc_Parameters := NonNil ldp |}).
  set (ec := {| ec_Parameters := NonNil lep; ec_DecryptConfig := dc |}).
  destruct (new_spec (OEncryptConfig ec) h2) as (lec & Hec & Fec).
  set (h3 := <[lec := OEncryptConfig ec]> h2) in *.
  destruct (new_spec (ODecryptConfig dc) h3) as (ldc & Hdc & Fdc).
  set (h4 := <[ldc := ODecryptConfig dc]> h3) in *.
  exists {| cc_EncryptConfig := NonNil lec; cc_DecryptConfig := NonNil ldc |}, h4, ldp.
  assert (Hrun : decrypt_bundle m h =
    ({| cc_EncryptConfig := NonNil lec; cc_DecryptConfig := NonNil ldc |}, Nil, h4)).
  { unfold decrypt_bundle, mbind, M_bind. rewrite Hdp. fold h1. rewrite Hep.
    fold dc ec. rewrite Hec. by rewrite Hdc. }
  assert (Hsub : h ⊆ h4).
  { subst h1 h2 h3 h4. etrans; [by apply insert_subseteq |].
    etrans; [by apply insert_subseteq |].
    etrans; [by apply insert_subseteq |]. by apply insert_subseteq. }
  subst h1 h2 h3 h4.
  apply lookup_insert_None in Fep as [Fep ?].
  apply lookup_insert_None in Fec as [Fec ?].
  apply lookup_insert_None in Fec as [Fec ?].
  apply lookup_insert_None in Fdc as [Fdc ?].
  apply lookup_insert_None in Fdc as [Fdc ?].
  apply lookup_insert_None in Fdc as [Fdc ?].
  split; [done |]. split; [done |].
  unfold returned, deep_value, embedded_DecryptConfig, toplevel_DecryptConfig,
    load_EncryptConfig, load_DecryptConfig, view_EncryptConfig,
    view_DecryptConfig, load_map, ec, dc; simpl.
  by simplify_map_eq.
Qed.

(** Each constructor is one of the three shapes. *)
Lemma run_shape_of (c : call) : run c = run_shape (shape_of c).
Proof.
  destruct c; simpl; try reflexivity.
  - unfold EncryptWithPkcs11. by repeat case_decide.
  - unfold DecryptWithPrivKeys. by repeat case_decide.
Qed.

(** The outcome of a call: its error, the deep value of its configuration
    in the heap it returns, and, on success, the [DecryptConfig] found both
    inside the [EncryptConfig] and behind the top-level pointer. *)
Lemma run_spec (c : call) (h : heap) :
  ∃ cfg h', run c h = (cfg, shape_error (shape_of c), h') ∧ h ⊆ h' ∧
    deep_value h' cfg = Some (shape_value (shape_of c)) ∧
    (shape_error (shape_of c) = Nil → ∃ dc, returned h' cfg dc).
Proof.
  rewrite run_shape_of. destruct (shape_of c) as [msg|m|m]; simpl.
  - exists CryptoConfig_zero, h. by repeat split.
  - destruct (encrypt_bundle_spec m h) as (cfg & h' & ? & ? & ? & ?).
    exists cfg, h'. repeat split; try done. by eexists.
  - destruct (decrypt_bundle_spec m h) as (cfg & h' & dp & ? & ? & ? & ? & ?).
    exists cfg, h'. repeat split; try done. by eexists.
Qed.

(** Lookups in the map literals of the constructors. *)
Lemma map_index_pair (k1 k2 : string) (s1 s2 : byteslices) (k : string) :
  k1 ≠ k2 →
  map_index (NonNil {[ k1 := s1; k2 := s2 ]}) k =
    if decide (k = k1) then s1 else if decide (k = k2) then s2 else Nil.
Proof.
  intros Hne. unfold map_index.
  repeat case_decide; subst; by simplify_map_eq.
Qed.

Lemma map_index_single (k1 : string) (s1 : byteslices) (k : string) :
  map_index (NonNil {[ k1 := s1 ]}) k = if decide (k = k1) then s1 else Nil.
Proof. unfold map_index. case_decide; subst; by simplify_map_eq. Qed.

Lemma map_index_empty (k : string) : map_index (NonNil ∅) k = Nil.
Proof. unfold map_index. by simplify_map_eq. Qed.

(** ** EncryptWithPkcs11 *)

(** C2. Whenever the module and pin sequences differ in length,
    [EncryptWithPkcs11] returns the zero configuration and the error
    "Length of modules should match length of pins", which is the
    [InvalidArgument] condition, and allocates nothing.  Nothing is assumed
    about the sizes themselves: the length comparison comes before the
    single-module test, so a pair such as two modules and one pin gets this
    error and not the single-module one. *)
Theorem EncryptWithPkcs11_length_mismatch (modules pins : byteslices) (h : heap) :
  len modules ≠ len pins →
  EncryptWithPkcs11 modules pins h =
    (CryptoConfig_zero,
     errors_New "Length of modules should match length of pins", h) ∧
  condition_of (EncryptWithPkcs11 modules pins h).1.2 = Some InvalidArgument ∧
  condition_of (EncryptWithPkcs11 modules pins h).1.2 ≠ Some UnsupportedConfiguration.
Proof.
  intros Hne. unfold EncryptWithPkcs11.
  rewrite decide_True by done. by repeat split.
Qed.

(** C3. When both sequences have length exactly 1, [EncryptWithPkcs11]
    returns no error and a configuration whose encrypt side has the
    parameter set with exactly the keys "modules" and "pins", bound to the
    two arguments as they were given; the decrypt configuration, both behind
    the top-level pointer and inside the encrypt configuration, is the empty
    one (nil parameters). *)
Theorem EncryptWithPkcs11_single (modules pins : byteslices) (h : heap) :
  len modules = 1 → len pins = 1 →
  ∃ cfg h' e d,
    EncryptWithPkcs11 modules pins h = (cfg, Nil, h') ∧
    deep_value h' cfg =
      Some {| ccv_EncryptConfig := NonNil e; ccv_DecryptConfig := NonNil d |} ∧
    ecv_Parameters e = NonNil {[ "modules" := modules; "pins" := pins ]} ∧
    map_index (ecv_Parameters e) "modules" = modules ∧
    map_index (ecv_Parameters e) "pins" = pins ∧
    dcv_Parameters d = Nil ∧
    dcv_Parameters (ecv_DecryptConfig e) = Nil.
Proof.
  intros Hm Hp.
  destruct (run_spec (Call_EncryptWithPkcs11 modules pins) h)
    as (cfg & h' & Hrun & _ & Hv & _).
  simpl in Hrun, Hv.
  rewrite decide_False in Hrun, Hv by lia.
  rewrite decide_False in Hrun, Hv by lia.
  simpl in Hrun, Hv.
  eexists cfg, h', _, _. split; [exact Hrun |]. split; [exact Hv |].
  simpl. rewrite !map_index_pair by done. by repeat split.
Qed.

(** C4. When the two sequences have the same length and that length is 2 or
    more, [EncryptWithPkcs11] returns the error "experimental, just support
    single module", which is the [UnsupportedConfiguration] condition,
    together with the zero configuration (both pointers nil), and allocates
    nothing. *)
Theorem EncryptWithPkcs11_several_modules (modules pins : byteslices) (h : heap) :
  len modules = len pins → 2 ≤ len modules →
  EncryptWithPkcs11 modules pins h =
    (CryptoConfig_zero, errors_New "experimental, just support single module", h) ∧
  condition_of (EncryptWithPkcs11 modules pins h).1.2 = Some UnsupportedConfiguration ∧
  deep_value h (EncryptWithPkcs11 modules pins h).1.1 =
    Some {| ccv_EncryptConfig := Nil; ccv_DecryptConfig := Nil |}.
Proof.
  intros Heq Hge. unfold EncryptWithPkcs11.
  rewrite decide_False by lia. rewrite decide_True by lia. by repeat split.
Qed.

(** C9. When both sequences are empty (nil or of length 0),
    [EncryptWithPkcs11] does not succeed: the lengths are equal, so the
    first test passes, and the single-module test fails with the
    [UnsupportedConfiguration] error.  Exactly one module is required. *)
Theorem EncryptWithPkcs11_no_module (modules pins : byteslices) (h : heap) :
  len modules = 0 → len pins = 0 →
  EncryptWithPkcs11 modules pins h =
    (CryptoConfig_zero, errors_New "experimental, just support single module", h) ∧
  condition_of (EncryptWithPkcs11 modules pins h).1.2 = Some UnsupportedConfiguration.
Proof.
  intros Hm Hp. unfold EncryptWithPkcs11.
  rewrite decide_False by lia. rewrite decide_True by lia. by repeat split.
Qed.

(** ** DecryptWithPrivKeys *)

(** C5. [DecryptWithPrivKeys] returns the [InvalidArgument] error exactly
    when the two sequences differ in length, and then with the zero
    configuration.  When the lengths agree, both empty included, it returns
    no error and a configuration whose decrypt parameter set has exactly
    the keys "privkeys" and "privkeys-passwords", bound to the two arguments
    as they were given. *)
Theorem DecryptWithPrivKeys_spec (privKeys privKeysPasswords : byteslices) (h : heap) :
  (condition_of (DecryptWithPrivKeys privKeys privKeysPasswords h).1.2
     = Some InvalidArgument ↔ len privKeys ≠ len privKeysPasswords) ∧
  (len privKeys ≠ len privKeysPasswords →
   DecryptWithPrivKeys privKeys privKeysPasswords h =
     (CryptoConfig_zero,
      errors_New "Length of privKeys should match length of privKeysPasswords",
      h)) ∧
  (len privKeys = len privKeysPasswords →
   ∃ cfg h' e d,
     DecryptWithPrivKeys privKeys privKeysPasswords h = (cfg, Nil, h') ∧
     deep_value h' cfg =
       Some {| ccv_EncryptConfig := NonNil e; ccv_DecryptConfig := NonNil d |} ∧
     dcv_Parameters d =
       NonNil {[ "privkeys" := privKeys;
                 "privkeys-passwords" := privKeysPasswords ]} ∧
     map_index (dcv_Parameters d) "privkeys" = privKeys ∧
     map_index (dcv_Parameters d) "privkeys-passwords" = privKeysPasswords).
Proof.
  destruct (run_spec (Call_DecryptWithPrivKeys privKeys privKeysPasswords) h)
    as (cfg & h' & Hrun & _ & Hv & _).
  simpl in Hrun, Hv.
  destruct (decide (len privKeys ≠ len privKeysPasswords)) as [Hne|Heq].
  - assert (Hzero : DecryptWithPrivKeys privKeys privKeysPasswords h =
      (CryptoConfig_zero,
       errors_New "Length of privKeys should match length of privKeysPasswords",
       h)).
    { unfold DecryptWithPrivKeys. by rewrite decide_True. }
    rewrite Hzero. split; [done |]. split; [done |]. intros ?. lia.
  - rewrite Hrun. simpl in *. split; [split; [done | intros ?; lia] |].
    split; [intros ?; lia |]. intros _.
    eexists cfg, h', _, _. split; [done |]. split; [exact Hv |].
    simpl. rewrite !map_index_pair by done. by repeat split.
Qed.

(** ** DecryptWithPkcs11 and DecryptWithGpgPrivKeys *)

(** C6. For every pair of sequences, whatever their lengths,
    [DecryptWithPkcs11] and [DecryptWithGpgPrivKeys] return no error and
    store the two sequences as given: they compare no lengths.  On a pair
    of unequal lengths, [EncryptWithPkcs11] and [DecryptWithPrivKeys] do
    return an error. *)
Theorem decrypt_constructors_without_length_check (s1 s2 : byteslices) (h : heap) :
  (∃ cfg h' e d,
     DecryptWithPkcs11 s1 s2 h = (cfg, Nil, h') ∧
     deep_value h' cfg =
       Some {| ccv_EncryptConfig := NonNil e; ccv_DecryptConfig := NonNil d |} ∧
     dcv_Parameters d = NonNil {[ "modules" := s1; "pins" := s2 ]}) ∧
  (∃ cfg h' e d,
     DecryptWithGpgPrivKeys s1 s2 h = (cfg, Nil, h') ∧
     deep_value h' cfg =
       Some {| ccv_EncryptConfig := NonNil e; ccv_DecryptConfig := NonNil d |} ∧
     dcv_Parameters d =
       NonNil {[ "gpg-privatekeys" := s1; "gpg-privatekeys-passwords" := s2 ]}) ∧
  (len s1 ≠ len s2 →
   (EncryptWithPkcs11 s1 s2 h).1.2 ≠ Nil ∧ (DecryptWithPrivKeys s1 s2 h).1.2 ≠ Nil).
Proof.
  split; [| split].
  - destruct (run_spec (Call_DecryptWithPkcs11 s1 s2) h)
      as (cfg & h' & Hrun & _ & Hv & _).
    eexists cfg, h', _, _. split; [exact Hrun |]. split; [exact Hv |]. done.
  - destruct (run_spec (Call_DecryptWithGpgPrivKeys s1 s2) h)
      as (cfg & h' & Hrun & _ & Hv & _).
    eexists cfg, h', _, _. split; [exact Hrun |]. split; [exact Hv |]. done.
  - intros Hne. unfold EncryptWithPkcs11, DecryptWithPrivKeys.
    by rewrite !decide_True.
Qed.

(** ** DecryptWithX509s *)

(** C7. For every certificate list, [DecryptWithX509s] returns no error and
    a configuration whose decrypt parameter set has the single key "x509s",
    bound to the list as given, and whose encrypt configuration has a
    parameter map that is not nil and has no entry. *)
Theorem DecryptWithX509s_spec (x509s : byteslices) (h : heap) :
  ∃ cfg h' e d,
    DecryptWithX509s x509s h = (cfg, Nil, h') ∧
    deep_value h' cfg =
      Some {| ccv_EncryptConfig := NonNil e; ccv_DecryptConfig := NonNil d |} ∧
    dcv_Parameters d = NonNil {[ "x509s" := x509s ]} ∧
    map_index (dcv_Parameters d) "x509s" = x509s ∧
    ecv_Parameters e = NonNil ∅.
Proof.
  destruct (run_spec (Call_DecryptWithX509s x509s) h)
    as (cfg & h' & Hrun & _ & Hv & _).
  eexists cfg, h', _, _. split; [exact Hrun |]. split; [exact Hv |].
  simpl. by rewrite map_index_single.
Qed.

(** ** The whole family *)

Lemma run_success (c : call) (h : heap) cfg h' :
  run c h = (cfg, Nil, h') →
  shape_error (shape_of c) = Nil ∧
  deep_value h' cfg = Some (shape_value (shape_of c)) ∧
  ∃ dc, returned h' cfg dc ∧
    view_DecryptConfig h' dc =
      Some (match shape_of c with
            | DecryptSide m => {| dcv_Parameters := NonNil m |}
            | _ => {| dcv_Parameters := Nil |}
            end).
Proof.
  intros Hrun. rewrite run_shape_of in Hrun.
  destruct (shape_of c) as [msg|m|m]; simpl in *.
  - discriminate Hrun.
  - destruct (encrypt_bundle_spec m h) as (cfg0 & h0 & Hb & _ & Hv & Hret).
    rewrite Hb in Hrun. injection Hrun as <- <-.
    split; [done |]. split; [done |]. by eexists.
  - destruct (decrypt_bundle_spec m h) as (cfg0 & h0 & dp & Hb & _ & Hv & Hret & Hdp).
    rewrite Hb in Hrun. injection Hrun as <- <-.
    split; [done |]. split; [done |]. eexists. split; [exact Hret |].
    unfold view_DecryptConfig, load_map. simpl. by rewrite Hdp.
Qed.

(** C1, amended. For every constructor other than [DecryptWithPkcs11] and
    [DecryptWithGpgPrivKeys], a configuration returned without error has a
    deep value all of whose parameter sets are well paired: the sequences
    under "modules" and "pins" have equal length, and so have those under
    "privkeys" and "privkeys-passwords" (and under the two GPG private-key
    names).  This covers [EncryptWithPkcs11] and [DecryptWithPrivKeys],
    which compare the lengths, and the constructors that store no pair. *)
Theorem pairing_of_returned_configurations (c : call) (h : heap) cfg h' :
  unchecked_pairing c = false →
  run c h = (cfg, Nil, h') →
  ∃ v, deep_value h' cfg = Some v ∧ all_well_paired v = true ∧
    ∀ ps, ps ∈ parameter_sets v →
      len (map_index ps "modules") = len (map_index ps "pins") ∧
      len (map_index ps "privkeys") = len (map_index ps "privkeys-passwords").
Proof.
  intros Hc Hrun. apply run_success in Hrun as (Herr & Hv & _).
  exists (shape_value (shape_of c)). split; [exact Hv |].
  assert (Hall : all_well_paired (shape_value (shape_of c)) = true).
  { clear Hv.
    destruct c; try discriminate Hc; simpl in Herr |- *;
      repeat case_decide; try discriminate Herr;
      unfold all_well_paired, parameter_sets, well_paired, paired_keys,
        map_index; simpl; simplify_map_eq; try done;
      rewrite !bool_decide_eq_true_2 by lia; done. }
  split; [exact Hall |].
  intros ps Hps. unfold all_well_paired in Hall.
  rewrite forallb_forall in Hall. apply list_elem_of_In in Hps.
  specialize (Hall ps Hps). unfold well_paired, paired_keys in Hall.
  simpl in Hall. rewrite !andb_true_iff, !bool_decide_eq_true in Hall.
  tauto.
Qed.

(** C8. Two calls of the same constructor with the same arguments return
    the same error and configurations with the same deep value: the
    encrypt and decrypt sides agree in nil-ness, keys and sequences, though
    the pointers differ.  This holds for calls made from unrelated heaps,
    each configuration being read in the heap its call returned; and when
    the second call starts from the heap left by the first, or from any
    extension of it, the two configurations are [reflect.DeepEqual] in the
    final heap. *)
Theorem constructors_deterministic (c : call) (h h' : heap)
    cfg1 e1 h1 cfg2 e2 h2 :
  run c h = (cfg1, e1, h1) →
  run c h' = (cfg2, e2, h2) →
  e1 = e2 ∧
  is_Some (deep_value h1 cfg1) ∧
  deep_value h1 cfg1 = deep_value h2 cfg2 ∧
  (h1 ⊆ h' → DeepEqual h2 cfg1 cfg2).
Proof.
  intros Hrun1 Hrun2.
  destruct (run_spec c h) as (c1 & g1 & Hs1 & _ & Hv1 & _).
  destruct (run_spec c h') as (c2 & g2 & Hs2 & Hsub2 & Hv2 & _).
  rewrite Hs1 in Hrun1. injection Hrun1 as <- <- <-.
  rewrite Hs2 in Hrun2. injection Hrun2 as <- <- <-.
  split; [done |]. split; [by rewrite Hv1 |]. split; [by rewrite Hv1, Hv2 |].
  intros Hsub. unfold DeepEqual.
  assert (Hv1' : deep_value g2 c1 = Some (shape_value (shape_of c))).
  { eapply deep_value_mono; [| exact Hv1]. by etrans. }
  rewrite Hv1', Hv2. by split.
Qed.

(** C10. In every configuration returned without error, the
    [DecryptConfig] stored inside the [EncryptConfig] and the one behind the
    top-level [DecryptConfig] pointer are the same value (the same
    reference to the same map).  For the decrypt constructors that value
    holds the full decrypt parameter set, for instance "privkeys" and
    "privkeys-passwords" after [DecryptWithPrivKeys]; for the encrypt
    constructors it is the empty configuration. *)
Theorem embedded_DecryptConfig_is_toplevel (c : call) (h : heap) cfg h' :
  run c h = (cfg, Nil, h') →
  ∃ dc,
    embedded_DecryptConfig h' cfg = Some dc ∧
    toplevel_DecryptConfig h' cfg = Some dc ∧
    view_DecryptConfig h' dc =
      Some {| dcv_Parameters :=
        match c with
        | Call_DecryptWithPrivKeys k p =>
            NonNil {[ "privkeys" := k; "privkeys-passwords" := p ]}
        | Call_DecryptWithX509s x509s => NonNil {[ "x509s" := x509s ]}
        | Call_DecryptWithGpgPrivKeys k p =>
            NonNil {[ "gpg-privatekeys" := k;
                      "gpg-privatekeys-passwords" := p ]}
        | Call_DecryptWithPkcs11 modules pins =>
            NonNil {[ "modules" := modules; "pins" := pins ]}
        | _ => Nil
        end |}.
Proof.
  intros Hrun. apply run_success in Hrun as (Herr & _ & dc & [He Ht] & Hdc).
  exists dc. split; [exact He |]. split; [exact Ht |].
  rewrite Hdc. clear Hdc He Ht.
  destruct c; simpl in Herr |- *; repeat case_decide;
    try discriminate Herr; done.
Qed.

End properties.

(** ** Further properties of the constructors *)

Section coverage.
Context {alloc : Allocator}.

(** The heap an encrypt-side bundle leaves: three new objects at three
    distinct unused addresses. *)
Lemma encrypt_bundle_layout (m : params) (h : heap) :
  ∃ lep lec ldc,
    encrypt_bundle m h =
      ({| cc_EncryptConfig := NonNil lec; cc_DecryptConfig := NonNil ldc |}, Nil,
       <[ldc := ODecryptConfig DecryptConfig_zero]>
         (<[lec := OEncryptConfig {| ec_Parameters := NonNil lep;
                                     ec_DecryptConfig := DecryptConfig_zero |}]>
            (<[lep := OMap m]> h))) ∧
    h !! lep = None ∧ h !! lec = None ∧ h !! ldc = None ∧
    lep ≠ lec ∧ lep ≠ ldc ∧ lec ≠ ldc.
Proof.
  destruct (map_literal_spec m h) as (lep & Hep & Fep).
  destruct (new_spec (OEncryptConfig {| ec_Parameters := NonNil lep;
                                        ec_DecryptConfig := DecryptConfig_zero |})
              (<[lep := OMap m]> h)) as (lec & Hec & Fec).
  destruct (new_spec (ODecryptConfig DecryptConfig_zero)
              (<[lec := OEncryptConfig {| ec_Parameters := NonNil lep;
                                          ec_DecryptConfig := DecryptConfig_zero |}]>
                 (<[lep := OMap m]> h))) as (ldc & Hdc & Fdc).
  exists lep, lec, ldc.
  apply lookup_insert_None in Fec as [Fec ?].
  apply lookup_insert_None in Fdc as [Fdc ?].
  apply lookup_insert_None in Fdc as [Fdc ?].
  split; [| by repeat split].
  unfold encrypt_bundle, mbind, M_bind. rewrite Hep, Hec. by rewrite Hdc.
Qed.

(** The heap a decrypt-side bundle leaves: four new objects. *)
Lemma decrypt_bundle_layout (m : params) (h : heap) :
  ∃ ldp lep lec ldc,
    decrypt_bundle m h =
      ({| cc_EncryptConfig := NonNil lec; cc_DecryptConfig := NonNil ldc |}, Nil,
       <[ldc := ODecryptConfig {| dc_Parameters := NonNil ldp |}]>
         (<[lec := OEncryptConfig
                     {| ec_Parameters := NonNil lep;
                        ec_DecryptConfig := {| dc_Parameters := NonNil ldp |} |}]>
            (<[lep := OMap ∅]> (<[ldp := OMap m]> h)))) ∧
    h !! ldp = None ∧ h !! lep = None ∧ h !! lec = None ∧ h !! ldc = None ∧
    ldp ≠ lep ∧ ldp ≠ lec ∧ ldp ≠ ldc ∧ lep ≠ lec ∧ lep ≠ ldc ∧ lec ≠ ldc.
Proof.
  destruct (map_literal_spec m h) as (ldp & Hdp & Fdp).
  destruct (map_literal_spec ∅ (<[ldp := OMap m]> h)) as (lep & Hep & Fep).
  destruct (new_spec (OEncryptConfig
                        {| ec_Parameters := NonNil lep;
                           ec_DecryptConfig := {| dc_Parameters := NonNil ldp |} |})
              (<[lep := OMap ∅]> (<[ldp := OMap m]> h))) as (lec & Hec & Fec).
  destruct (new_spec (ODecryptConfig {| dc_Parameters := NonNil ldp |})
              (<[lec := OEncryptConfig
                          {| ec_Parameters := NonNil lep;
                             ec_DecryptConfig := {| dc_Parameters := NonNil ldp |} |}]>
                 (<[lep := OMap ∅]> (<[ldp := OMap m]> h))))
    as (ldc & Hdc & Fdc).
  exists ldp, lep, lec, ldc.
  apply lookup_insert_None in Fep as [Fep ?].
  apply lookup_insert_None in Fec as [Fec ?].
  apply lookup_insert_None in Fec as [Fec ?].
  apply lookup_insert_None in Fdc as [Fdc ?].
  apply lookup_insert_None in Fdc as [Fdc ?].
  apply lookup_insert_None in Fdc as [Fdc ?].
  split; [| by repeat split].
  unfold decrypt_bundle, mbind, M_bind. rewrite Hdp, Hep, Hec. by rewrite Hdc.
Qed.

(** *** The encrypt constructors without validation *)

(** X1. [EncryptWithJwe] never fails.  The encrypt parameter set has the
    single key "pubkeys", bound to the argument as given (a nil slice stays
    nil), and the decrypt configuration, in both places, has nil
    parameters. *)
Theorem EncryptWithJwe_spec (pubKeys : byteslices) (h : heap) :
  ∃ cfg h' e d,
    EncryptWithJwe pubKeys h = (cfg, Nil, h') ∧
    deep_value h' cfg =
      Some {| ccv_EncryptConfig := NonNil e; ccv_DecryptConfig := NonNil d |} ∧
    ecv_Parameters e = NonNil {[ "pubkeys" := pubKeys ]} ∧
    map_index (ecv_Parameters e) "pubkeys" = pubKeys ∧
    dcv_Parameters d = Nil ∧
    dcv_Parameters (ecv_DecryptConfig e) = Nil.
Proof.
  destruct (run_spec (Call_EncryptWithJwe pubKeys) h)
    as (cfg & h' & Hrun & _ & Hv & _).
  eexists cfg, h', _, _. split; [exact Hrun |]. split; [exact Hv |].
  simpl. by rewrite map_index_single.
Qed.

(** X2. [EncryptWithPkcs7] never fails.  The encrypt parameter set has the
    single key "x509s", bound to the argument as given, and the decrypt
    configuration has nil parameters. *)
Theorem EncryptWithPkcs7_spec (x509s : byteslices) (h : heap) :
  ∃ cfg h' e d,
    EncryptWithPkcs7 x509s h = (cfg, Nil, h') ∧
    deep_value h' cfg =
      Some {| ccv_EncryptConfig := NonNil e; ccv_DecryptConfig := NonNil d |} ∧
    ecv_Parameters e = NonNil {[ "x509s" := x509s ]} ∧
    map_index (ecv_Parameters e) "x509s" = x509s ∧
    dcv_Parameters d = Nil ∧
    dcv_Parameters (ecv_DecryptConfig e) = Nil.
Proof.
  destruct (run_spec (Call_EncryptWithPkcs7 x509s) h)
    as (cfg & h' & Hrun & _ & Hv & _).
  eexists cfg, h', _, _. split; [exact Hrun |]. split; [exact Hv |].
  simpl. by rewrite map_index_single.
Qed.

(** X3. [EncryptWithGpg] never fails.  "gpg-recipients" is bound to the
    recipient list as given, and "gpg-pubkeyringfile" to a sequence of
    exactly one element, the keyring argument: its length is 1 whatever the
    number of recipients, also when the keyring is nil. *)
Theorem EncryptWithGpg_spec (gpgRecipients : byteslices) (gpgPubRingFile : bytes)
    (h : heap) :
  ∃ cfg h' e d,
    EncryptWithGpg gpgRecipients gpgPubRingFile h = (cfg, Nil, h') ∧
    deep_value h' cfg =
      Some {| ccv_EncryptConfig := NonNil e; ccv_DecryptConfig := NonNil d |} ∧
    ecv_Parameters e =
      NonNil {[ "gpg-recipients" := gpgRecipients;
                "gpg-pubkeyringfile" := NonNil [gpgPubRingFile] ]} ∧
    map_index (ecv_Parameters e) "gpg-recipients" = gpgRecipients ∧
    map_index (ecv_Parameters e) "gpg-pubkeyringfile" = NonNil [gpgPubRingFile] ∧
    len (map_index (ecv_Parameters e) "gpg-pubkeyringfile") = 1 ∧
    dcv_Parameters d = Nil ∧
    dcv_Parameters (ecv_DecryptConfig e) = Nil.
Proof.
  destruct (run_spec (Call_EncryptWithGpg gpgRecipients gpgPubRingFile) h)
    as (cfg & h' & Hrun & _ & Hv & _).
  eexists cfg, h', _, _. split; [exact Hrun |]. split; [exact Hv |].
  simpl. rewrite !map_index_pair by done. by repeat split.
Qed.

(** *** The decision table of EncryptWithPkcs11 *)

(** X4. [EncryptWithPkcs11] succeeds exactly when both sequences have
    length 1; it returns the [InvalidArgument] error exactly when the
    lengths differ, and the [UnsupportedConfiguration] error exactly when
    they are equal and not 1. *)
Theorem EncryptWithPkcs11_decision (modules pins : byteslices) (h : heap) :
  ((EncryptWithPkcs11 modules pins h).1.2 = Nil
     ↔ len modules = 1 ∧ len pins = 1) ∧
  (condition_of (EncryptWithPkcs11 modules pins h).1.2 = Some InvalidArgument
     ↔ len modules ≠ len pins) ∧
  (condition_of (EncryptWithPkcs11 modules pins h).1.2 = Some UnsupportedConfiguration
     ↔ len modules = len pins ∧ len modules ≠ 1).
Proof.
  destruct (run_spec (Call_EncryptWithPkcs11 modules pins) h)
    as (cfg & h' & Hrun & _).
  simpl in Hrun. rewrite Hrun. simpl. clear Hrun.
  repeat case_decide; simpl; (split; [| split]); split;
    try done; try (intros [? ?]; lia); try (intros ?; lia); intros ?; split; lia.
Qed.

(** *** Shared facts about a call *)




(** *** Failure *)


(** *** What a call does to the heap *)

(** X6. No constructor writes to an object that exists already: every
    object of the heap before the call is unchanged after it, and every
    configuration that could be read before the call reads the same
    after. *)
Theorem constructors_preserve_heap (c : call) (h : heap) cfg e h' :
  run c h = (cfg, e, h') →
  (∀ l o, h !! l = Some o → h' !! l = Some o) ∧
  (∀ cfg0 v, deep_value h cfg0 = Some v → deep_value h' cfg0 = Some v).
Proof.
  intros Hrun.
  destruct (run_spec c h) as (cfg1 & h1 & Hs & Hsub & _).
  rewrite Hs in Hrun. injection Hrun as <- <- <-.
  split.
  - intros l o Hl. by eapply lookup_weaken.
  - intros cfg0 v Hv. by eapply deep_value_mono.
Qed.




(** X9. The [EncryptConfig] always has a map of its own: its [Parameters]
    is never nil, refers to a map object, and is a different reference from
    the [Parameters] of the decrypt configuration, which the embedded and
    the top-level [DecryptConfig] share. *)
Theorem encrypt_map_is_separate (c : call) (h : heap) cfg h' :
  run c h = (cfg, Nil, h') →
  ∃ pec ec ep m,
    cc_EncryptConfig cfg = NonNil pec ∧
    h' !! pec = Some (OEncryptConfig ec) ∧
    ec_Parameters ec = NonNil ep ∧
    h' !! ep = Some (OMap m) ∧
    dc_Parameters (ec_DecryptConfig ec) ≠ NonNil ep ∧
    toplevel_DecryptConfig h' cfg = Some (ec_DecryptConfig ec).
Proof.
  intros Hrun. rewrite run_shape_of in Hrun.
  destruct (shape_of c) as [msg|m|m]; simpl in Hrun.
  - discriminate Hrun.
  - destruct (encrypt_bundle_layout m h)
      as (lep & lec & ldc & Hb & ? & ? & ? & ? & ? & ?).
    rewrite Hb in Hrun. injection Hrun as <- <-.
    eexists lec, _, lep, m. unfold toplevel_DecryptConfig. simpl.
    by simplify_map_eq.
  - destruct (decrypt_bundle_layout m h)
      as (ldp & lep & lec & ldc & Hb & ? & ? & ? & ? & ? & ? & ? & ? & ? & ?).
    rewrite Hb in Hrun. injection Hrun as <- <-.
    eexists lec, _, lep, ∅. unfold toplevel_DecryptConfig. simpl.
    simplify_map_eq.
    split; [done |]. split; [reflexivity |]. simpl.
    repeat split; congruence.
Qed.

(** X10. Exactly one side is populated.  In a configuration returned
    without error either the encrypt parameter map has entries and the
    decrypt parameters are nil (the encrypt constructors), or the encrypt
    parameter map is allocated and empty and the decrypt parameter map has
    entries (the decrypt constructors). *)
Theorem one_side_populated (c : call) (h : heap) cfg h' :
  run c h = (cfg, Nil, h') →
  ∃ e d,
    deep_value h' cfg =
      Some {| ccv_EncryptConfig := NonNil e; ccv_DecryptConfig := NonNil d |} ∧
    ecv_DecryptConfig e = d ∧
    ((∃ m, ecv_Parameters e = NonNil m ∧ m ≠ ∅ ∧ dcv_Parameters d = Nil) ∨
     (ecv_Parameters e = NonNil ∅ ∧ ∃ m, dcv_Parameters d = NonNil m ∧ m ≠ ∅)).
Proof.
  intros Hrun. apply run_success in Hrun as (Herr & Hv & _).
  assert (Hne : match shape_of c with
                | Failed _ => True
                | EncryptSide m | DecryptSide m => m ≠ ∅
                end).
  { destruct c; simpl; repeat case_decide; try done;
      apply insert_non_empty. }
  destruct (shape_of c) as [msg|m|m]; simpl in *.
  - discriminate Herr.
  - eexists _, _. split; [exact Hv |]. split; [done |]. left. by exists m.
  - eexists _, _. split; [exact Hv |]. split; [done |]. right.
    split; [done |]. by exists m.
Qed.

(** X11. [DecryptWithPkcs11] and [DecryptWithGpgPrivKeys] pass the pairing
    of their arguments through: the configuration they return has only
    well-paired parameter sets exactly when the two arguments have equal
    length. *)
Theorem unchecked_pairing_passes_through (s1 s2 : byteslices) (h : heap) :
  (∃ cfg h' v,
     DecryptWithPkcs11 s1 s2 h = (cfg, Nil, h') ∧
     deep_value h' cfg = Some v ∧
     (all_well_paired v = true ↔ len s1 = len s2)) ∧
  (∃ cfg h' v,
     DecryptWithGpgPrivKeys s1 s2 h = (cfg, Nil, h') ∧
     deep_value h' cfg = Some v ∧
     (all_well_paired v = true ↔ len s1 = len s2)).
Proof.
  split.
  - destruct (run_spec (Call_DecryptWithPkcs11 s1 s2) h)
      as (cfg & h' & Hrun & _ & Hv & _).
    eexists cfg, h', _. split; [exact Hrun |]. split; [exact Hv |].
    unfold all_well_paired, parameter_sets, well_paired, paired_keys, map_index.
    simpl. simplify_map_eq.
    case_bool_decide; simpl; split; done.
  - destruct (run_spec (Call_DecryptWithGpgPrivKeys s1 s2) h)
      as (cfg & h' & Hrun & _ & Hv & _).
    eexists cfg, h', _. split; [exact Hrun |]. split; [exact Hv |].
    unfold all_well_paired, parameter_sets, well_paired, paired_keys, map_index.
    simpl. simplify_map_eq.
    case_bool_decide; simpl; split; done.
Qed.

(** *** The arguments can be read back *)

(** Two map literals are compared entry by entry at the keys the
    constructors use. *)
Ltac probe_key Hm k :=
  let Hk := fresh "Hk" in
  pose proof (f_equal (λ m : params, m !! k) Hm) as Hk; simpl in Hk.

Ltac probe_keys Hm :=
  probe_key Hm "pubkeys"; probe_key Hm "x509s";
  probe_key Hm "gpg-recipients"; probe_key Hm "gpg-pubkeyringfile";
  probe_key Hm "modules"; probe_key Hm "pins";
  probe_key Hm "privkeys"; probe_key Hm "privkeys-passwords";
  probe_key Hm "gpg-privatekeys"; probe_key Hm "gpg-privatekeys-passwords";
  clear Hm; simplify_map_eq.

Lemma shape_value_inj (s1 s2 : shape) :
  shape_error s1 = Nil → shape_error s2 = Nil →
  shape_value s1 = shape_value s2 → s1 = s2.
Proof.
  destruct s1, s2; simpl; intros E1 E2 Hv;
    try discriminate E1; try discriminate E2; by simplify_eq.
Qed.

Lemma shape_of_inj (c1 c2 : call) :
  shape_error (shape_of c1) = Nil →
  shape_of c1 = shape_of c2 → c1 = c2.
Proof.
  intros E1 Hs.
  destruct c1, c2; simpl in E1, Hs; repeat case_decide;
    try discriminate E1; try discriminate Hs;
    match type of Hs with
    | EncryptSide ?a = EncryptSide ?b => assert (Hm : a = b) by congruence
    | DecryptSide ?a = DecryptSide ?b => assert (Hm : a = b) by congruence
    end;
    clear Hs; probe_keys Hm; congruence.
Qed.

(** X12. A returned configuration determines the call that made it: when
    two calls that return no error give configurations with the same deep
    value, they are calls of the same constructor with the same arguments.
    No two constructors produce the same configuration and no argument is
    dropped or altered on the way in. *)
Theorem arguments_recoverable (c1 c2 : call) (h1 h2 : heap) cfg1 cfg2 h1' h2' :
  run c1 h1 = (cfg1, Nil, h1') →
  run c2 h2 = (cfg2, Nil, h2') →
  deep_value h1' cfg1 = deep_value h2' cfg2 →
  c1 = c2.
Proof.
  intros Hrun1 Hrun2 Heq.
  apply run_success in Hrun1 as (E1 & Hv1 & _).
  apply run_success in Hrun2 as (E2 & Hv2 & _).
  rewrite Hv1, Hv2 in Heq. injection Heq as Heq.
  apply shape_of_inj; [exact E1 |].
  by apply shape_value_inj.
Qed.

End coverage.


(** ** The theorems at concrete inputs

    The constructors run here with [bump_allocator], from the empty heap. *)

Example EncryptWithJwe_scenario :
  let r := EncryptWithJwe (alloc := bump_allocator) (NonNil [key1; key2]) ∅ in
  r.1.2 = Nil ∧
  deep_value r.2 r.1.1 =
    Some {| ccv_EncryptConfig :=
              NonNil {| ecv_Parameters := NonNil {[ "pubkeys" := NonNil [key1; key2] ]};
                        ecv_DecryptConfig := {| dcv_Parameters := Nil |} |};
            ccv_DecryptConfig := NonNil {| dcv_Parameters := Nil |} |}.
Proof. split; vm_compute; reflexivity. Qed.

Example EncryptWithGpg_scenario :
  let r := EncryptWithGpg (alloc := bump_allocator) (NonNil [key1]) key2 ∅ in
  r.1.2 = Nil ∧
  (λ v, map_index (ecv_Parameters v) "gpg-pubkeyringfile") <$>
    (deep_value r.2 r.1.1 ≫= λ v,
       match ccv_EncryptConfig v with NonNil e => Some e | Nil => None end)
  = Some (NonNil [key2]).
Proof. split; vm_compute; reflexivity. Qed.

Example DecryptWithX509s_scenario :
  let r := DecryptWithX509s (alloc := bump_allocator) (NonNil [cert1]) ∅ in
  r.1.2 = Nil ∧
  deep_value r.2 r.1.1 =
    Some {| ccv_EncryptConfig :=
              NonNil {| ecv_Parameters := NonNil ∅;
                        ecv_DecryptConfig :=
                          {| dcv_Parameters := NonNil {[ "x509s" := NonNil [cert1] ]} |} |};
            ccv_DecryptConfig :=
              NonNil {| dcv_Parameters := NonNil {[ "x509s" := NonNil [cert1] ]} |} |}.
Proof. split; vm_compute; reflexivity. Qed.

(** C1 as stated fails: [DecryptWithPkcs11] with one module and no pin
    returns no error, and its decrypt parameter set binds "modules" to a
    sequence of length 1 and "pins" to one of length 0. *)
Lemma pairing_invariant_fails :
  (let r := DecryptWithPkcs11 (alloc := bump_allocator)
              (NonNil [mod1]) (NonNil []) ∅ in
   r.1.2 = Nil ∧
   ∃ e d,
     deep_value r.2 r.1.1 =
       Some {| ccv_EncryptConfig := NonNil e; ccv_DecryptConfig := NonNil d |} ∧
     len (map_index (dcv_Parameters d) "modules") = 1 ∧
     len (map_index (dcv_Parameters d) "pins") = 0) ∧
  ¬ pairing_invariant.
Proof.
  split.
  - split; [vm_compute; reflexivity |].
    eexists _, _. split; [vm_compute; reflexivity |].
    split; vm_compute; reflexivity.
  - intros Hinv.
    pose (r := DecryptWithPkcs11 (alloc := bump_allocator)
                 (NonNil [mod1]) (NonNil []) ∅).
    destruct (deep_value r.2 r.1.1) as [v|] eqn:Hv; [| by vm_compute in Hv].
    specialize (Hinv bump_allocator
      (Call_DecryptWithPkcs11 (NonNil [mod1]) (NonNil [])) ∅ r.1.1 r.2 v).
    assert (Hbad : all_well_paired v = false).
    { vm_compute in Hv. injection Hv as <-. vm_compute. reflexivity. }
    rewrite Hinv in Hbad; [discriminate | vm_compute; reflexivity | exact Hv].
Qed.

Lemma pairing_of_returned_configurations_witness :
  let c := Call_EncryptWithPkcs11 (NonNil [mod1]) (NonNil [pin1]) in
  let r := run (alloc := bump_allocator) c ∅ in
  unchecked_pairing c = false ∧
  ∃ v, deep_value r.2 r.1.1 = Some v ∧ all_well_paired v = true.
Proof.
  intros c r. split; [reflexivity |].
  destruct (pairing_of_returned_configurations (alloc := bump_allocator)
              c ∅ r.1.1 r.2) as (v & Hv & Hall & _).
  - reflexivity.
  - vm_compute. reflexivity.
  - exists v. split; [exact Hv | exact Hall].
Defined.

Lemma EncryptWithPkcs11_length_mismatch_witness :
  len (A := bytes) (NonNil [mod1; mod2]) ≠ len (A := bytes) (NonNil [pin1]) ∧
  condition_of
    (EncryptWithPkcs11 (alloc := bump_allocator)
       (NonNil [mod1; mod2]) (NonNil [pin1]) ∅).1.2 = Some InvalidArgument.
Proof.
  split; [simpl; lia |].
  apply (EncryptWithPkcs11_length_mismatch (alloc := bump_allocator)
           (NonNil [mod1; mod2]) (NonNil [pin1]) ∅).
  simpl. lia.
Defined.

Lemma EncryptWithPkcs11_single_witness :
  len (A := bytes) (NonNil [mod1]) = 1 ∧ len (A := bytes) (NonNil [pin1]) = 1 ∧
  ∃ cfg h', EncryptWithPkcs11 (alloc := bump_allocator)
              (NonNil [mod1]) (NonNil [pin1]) ∅ = (cfg, Nil, h').
Proof.
  split; [reflexivity |]. split; [reflexivity |].
  destruct (EncryptWithPkcs11_single (alloc := bump_allocator)
              (NonNil [mod1]) (NonNil [pin1]) ∅) as (cfg & h' & _ & _ & Hrun & _).
  - reflexivity.
  - reflexivity.
  - by exists cfg, h'.
Defined.

Lemma EncryptWithPkcs11_several_modules_witness :
  len (A := bytes) (NonNil [mod1; mod2]) = len (A := bytes) (NonNil [pin1; pin1]) ∧
  2 ≤ len (A := bytes) (NonNil [mod1; mod2]) ∧
  condition_of
    (EncryptWithPkcs11 (alloc := bump_allocator)
       (NonNil [mod1; mod2]) (NonNil [pin1; pin1]) ∅).1.2
    = Some UnsupportedConfiguration.
Proof.
  split; [reflexivity |]. split; [simpl; lia |].
  apply (EncryptWithPkcs11_several_modules (alloc := bump_allocator)
           (NonNil [mod1; mod2]) (NonNil [pin1; pin1]) ∅).
  - reflexivity.
  - simpl. lia.
Defined.

Lemma EncryptWithPkcs11_no_module_witness :
  len (A := bytes) Nil = 0 ∧ len (A := bytes) (NonNil []) = 0 ∧
  condition_of
    (EncryptWithPkcs11 (alloc := bump_allocator) Nil (NonNil []) ∅).1.2
    = Some UnsupportedConfiguration.
Proof.
  split; [reflexivity |]. split; [reflexivity |].
  apply (EncryptWithPkcs11_no_module (alloc := bump_allocator) Nil (NonNil []) ∅);
    reflexivity.
Defined.

Lemma DecryptWithPrivKeys_spec_witness :
  len (A := bytes) (NonNil [key1; key2]) = len (A := bytes) (NonNil [Nil; pin1]) ∧
  ∃ cfg h', DecryptWithPrivKeys (alloc := bump_allocator)
              (NonNil [key1; key2]) (NonNil [Nil; pin1]) ∅ = (cfg, Nil, h').
Proof.
  split; [reflexivity |].
  destruct (DecryptWithPrivKeys_spec (alloc := bump_allocator)
              (NonNil [key1; key2]) (NonNil [Nil; pin1]) ∅) as (_ & _ & Hok).
  destruct Hok as (cfg & h' & _ & _ & Hrun & _); [reflexivity |].
  by exists cfg, h'.
Defined.

Lemma decrypt_constructors_without_length_check_witness :
  len (A := bytes) (NonNil [mod1; mod2]) ≠ len (A := bytes) (NonNil [pin1]) ∧
  (DecryptWithPkcs11 (alloc := bump_allocator)
     (NonNil [mod1; mod2]) (NonNil [pin1]) ∅).1.2 = Nil ∧
  (EncryptWithPkcs11 (alloc := bump_allocator)
     (NonNil [mod1; mod2]) (NonNil [pin1]) ∅).1.2 ≠ Nil.
Proof.
  split; [simpl; lia |].
  destruct (decrypt_constructors_without_length_check (alloc := bump_allocator)
              (NonNil [mod1; mod2]) (NonNil [pin1]) ∅) as (Hp & _ & Hchk).
  destruct Hp as (cfg & h' & _ & _ & Hrun & _).
  split; [by rewrite Hrun |].
  apply Hchk. simpl. lia.
Defined.

Lemma constructors_deterministic_witness :
  let c := Call_DecryptWithPrivKeys (NonNil [key1]) (NonNil [pin1]) in
  let r1 := run (alloc := bump_allocator) c ∅ in
  let r2 := run (alloc := bump_allocator) c r1.2 in
  r1.1.1 ≠ r2.1.1 ∧ r1.1.2 = r2.1.2 ∧ DeepEqual r2.2 r1.1.1 r2.1.1.
Proof.
  intros c r1 r2.
  split; [vm_compute; intros [=] |].
  destruct (constructors_deterministic (alloc := bump_allocator)
              c ∅ r1.2 r1.1.1 r1.1.2 r1.2 r2.1.1 r2.1.2 r2.2)
    as (He & _ & _ & Hd).
  - vm_compute. reflexivity.
  - vm_compute. reflexivity.
  - split; [exact He | apply Hd; reflexivity].
Defined.

Lemma embedded_DecryptConfig_is_toplevel_witness :
  let c := Call_DecryptWithPrivKeys (NonNil [key1]) (NonNil [pin1]) in
  let r := run (alloc := bump_allocator) c ∅ in
  r.1.2 = Nil ∧
  is_Some (embedded_DecryptConfig r.2 r.1.1) ∧
  embedded_DecryptConfig r.2 r.1.1 = toplevel_DecryptConfig r.2 r.1.1.
Proof.
  intros c r. split; [vm_compute; reflexivity |].
  destruct (embedded_DecryptConfig_is_toplevel (alloc := bump_allocator)
              c ∅ r.1.1 r.2) as (dc & He & Ht & _).
  - vm_compute. reflexivity.
  - rewrite He, Ht. split; [by eexists | reflexivity].
Defined.

(** ** The further properties at concrete inputs *)


Lemma constructors_preserve_heap_witness :
  let r1 := run (alloc := bump_allocator)
              (Call_DecryptWithX509s (NonNil [cert1])) ∅ in
  let r2 := run (alloc := bump_allocator)
              (Call_EncryptWithJwe (NonNil [key1; key2])) r1.2 in
  is_Some (deep_value r1.2 r1.1.1) ∧
  deep_value r2.2 r1.1.1 = deep_value r1.2 r1.1.1.
Proof.
  intros r1 r2.
  destruct (deep_value r1.2 r1.1.1) as [v|] eqn:Hv; [| by vm_compute in Hv].
  split; [by eexists |].
  destruct (constructors_preserve_heap (alloc := bump_allocator)
              (Call_EncryptWithJwe (NonNil [key1; key2])) r1.2
              r2.1.1 r2.1.2 r2.2) as [_ Hdeep].
  - vm_compute. reflexivity.
  - apply Hdeep. exact Hv.
Defined.



Lemma encrypt_map_is_separate_witness :
  let r := run (alloc := bump_allocator)
             (Call_DecryptWithPrivKeys (NonNil [key1]) (NonNil [pin1])) ∅ in
  r.1.2 = Nil ∧
  ∃ pec ec ep,
    cc_EncryptConfig r.1.1 = NonNil pec ∧
    r.2 !! pec = Some (OEncryptConfig ec) ∧
    ec_Parameters ec = NonNil ep ∧
    dc_Parameters (ec_DecryptConfig ec) ≠ NonNil ep.
Proof.
  intros r. split; [vm_compute; reflexivity |].
  destruct (encrypt_map_is_separate (alloc := bump_allocator)
              (Call_DecryptWithPrivKeys (NonNil [key1]) (NonNil [pin1])) ∅
              r.1.1 r.2) as (pec & ec & ep & m & H1 & H2 & H3 & _ & H5 & _).
  - vm_compute. reflexivity.
  - exists pec, ec, ep. repeat split; assumption.
Defined.

Lemma one_side_populated_witness :
  let r := run (alloc := bump_allocator)
             (Call_EncryptWithGpg (NonNil [key1]) key2) ∅ in
  r.1.2 = Nil ∧
  ∃ e d,
    deep_value r.2 r.1.1 =
      Some {| ccv_EncryptConfig := NonNil e; ccv_DecryptConfig := NonNil d |} ∧
    ecv_DecryptConfig e = d.
Proof.
  intros r. split; [vm_compute; reflexivity |].
  destruct (one_side_populated (alloc := bump_allocator)
              (Call_EncryptWithGpg (NonNil [key1]) key2) ∅ r.1.1 r.2)
    as (e & d & Hv & Hd & _).
  - vm_compute. reflexivity.
  - exists e, d. split; [exact Hv | exact Hd].
Defined.

Lemma arguments_recoverable_witness :
  let c := Call_EncryptWithPkcs11 (NonNil [mod1]) (NonNil [pin1]) in
  let r1 := run (alloc := bump_allocator) c ∅ in
  let r2 := run (alloc := bump_allocator) c r1.2 in
  r1.1.2 = Nil ∧ r2.1.2 = Nil ∧
  deep_value r1.2 r1.1.1 = deep_value r2.2 r2.1.1 ∧
  c = c.
Proof.
  intros c r1 r2.
  split; [vm_compute; reflexivity |]. split; [vm_compute; reflexivity |].
  split; [vm_compute; reflexivity |].
  apply (arguments_recoverable (alloc := bump_allocator)
           c c ∅ r1.2 r1.1.1 r2.1.1 r1.2 r2.2).
  - vm_compute. reflexivity.
  - vm_compute. reflexivity.
  - vm_compute. reflexivity.
Defined.
